(** * Corvid20 [extensible_arena]: a shallow embedding and its properties

    The development follows [containers/arena_allocator.h]: a bump allocator
    over a singly linked chain of blocks ([list_node]), the chain-growing
    [extensible_arena::allocate], the thread-local binding installed by
    [extensible_arena::scope], and the stateless [arena_allocator<T>]
    adapter.

    Conventions.
    - [size_t] is the 64-bit unsigned type; values are [Z] in
      [0, 2^64) and every arithmetic operation is reduced with [wrap].
    - An address returned by [list_node::allocate] is [data + start]; it is
      represented by the offset [start] into the block's [data] buffer, and
      [None] stands for [nullptr].
    - The contents of [data] are never read or written by the allocator and
      are not part of the model.
    - [operator new] is taken to succeed, and arenas are not destroyed
      while the code under study runs. *)

From Stdlib Require Import ZArith Lia Bool Sorted.
From stdpp Require Import base option list gmap.

Local Open Scope Z_scope.

(** ** [size_t] arithmetic *)

Module SizeT.

Definition bits : Z := 64.
Definition modulus : Z := 2 ^ bits.
Definition max : Z := modulus - 1.

(** Reduction of a mathematical integer to its [size_t] value. *)
Definition wrap (z : Z) : Z := z mod modulus.

(** [~x] on [size_t]. *)
Definition not (x : Z) : Z := wrap (Z.lnot x).

(** A representable value. *)
Definition in_range (z : Z) : Prop := 0 <= z < modulus.

(** [a] is one of [1, 2, 4, ..., 2^63]. *)
Definition is_pow2 (a : Z) : Prop := 0 < a < modulus /\ 2 ^ Z.log2 a = a.

End SizeT.

(** ** Blocks: [extensible_arena::list_node] *)

(** [pointer] is [std::unique_ptr<list_node>]; the owned node is held by
    value and the empty pointer is [None]. *)
Local Set Warnings "-register-all".
Inductive list_node : Type :=
  Node { capacity : Z; size : Z; next : option list_node }.

(** [list_node::make]: value-initialised node, then [capacity] is set. *)
Definition make (capacity : Z) : list_node :=
  {| capacity := capacity; size := 0; next := None |}.

(** [list_node::allocate]: the returned pair is the result pointer and the
    node after the call. *)
Definition allocate (node : list_node) (n align : Z) : option Z * list_node :=
  let start :=
    Z.land (SizeT.wrap (node.(size) + align - 1))
           (SizeT.not (SizeT.wrap (align - 1))) in
  let past := SizeT.wrap (start + n) in
  if past >? node.(capacity) then (None, node)
  else (Some start,
        {| capacity := node.(capacity); size := past; next := node.(next) |}).

(** ** Chain growth: [extensible_arena::allocate(pointer&, size_t, size_t)]

    [head] is the node owned by the [pointer&] argument.  The arena's
    [head_] is initialised from [make] by the only constructor and is only
    ever reassigned to a freshly made node, so it is never empty. *)
Definition arena_allocate (head : list_node) (n align : Z)
  : option Z * list_node :=
  match allocate head n align with
  | (Some start, head') => (Some start, head')
  | (None, head') =>
      let new_head := make (Z.min head'.(capacity) n) in
      let new_head :=
        {| capacity := new_head.(capacity); size := new_head.(size);
           next := Some head' |} in
      allocate new_head n align
  end.

(** ** Thread state: arenas and the thread-local [tls_head]

    An [extensible_arena] object is identified by the address of its [head_]
    member.  [arenas] maps such an address to the node [head_] owns;
    [tls_head] is the [thread_local static pointer*], [None] being the null
    pointer it is zero-initialised to. *)
Record thread_state : Type :=
  ThreadState { arenas : gmap nat list_node; tls_head : option nat }.

Definition thread_start : thread_state :=
  {| arenas := ∅; tls_head := None |}.

(** [extensible_arena::extensible_arena(capacity)], for an arena object that
    the caller has placed at address [this]. *)
Definition extensible_arena (this : nat) (capacity : Z) (st : thread_state)
  : thread_state :=
  {| arenas := <[this := make capacity]> st.(arenas);
     tls_head := st.(tls_head) |}.

(** What a call does: it returns a value in a new state, or it stops the
    program at [assert(tls_head)], or it dereferences a [tls_head] that
    points to no live arena (undefined behaviour). *)
Inductive outcome (A : Type) : Type :=
  | Returned (v : A) (st : thread_state)
  | AssertFailed
  | DanglingHead.
Arguments Returned {A} v st.
Arguments AssertFailed {A}.
Arguments DanglingHead {A}.

Definition bind {A B : Type} (m : outcome A)
    (k : A -> thread_state -> outcome B) : outcome B :=
  match m with
  | Returned v st => k v st
  | AssertFailed => AssertFailed
  | DanglingHead => DanglingHead
  end.

(** [extensible_arena::allocate(size_t, size_t)], the static entry point,
    as compiled with assertions enabled. *)
Definition static_allocate (n align : Z) (st : thread_state)
  : outcome (option Z) :=
  match st.(tls_head) with
  | None => AssertFailed
  | Some slot =>
      match st.(arenas) !! slot with
      | None => DanglingHead
      | Some head =>
          let '(start, head') := arena_allocate head n align in
          Returned start
            {| arenas := <[slot := head']> st.(arenas);
               tls_head := st.(tls_head) |}
      end
  end.

(** ** [extensible_arena::scope] *)

Record scope : Type := Scope { old_head : option nat }.

(** The constructor: the member initialiser [old_head(&arena.head_)], then
    the body [tls_head = &arena.head_]. *)
Definition scope_ctor (arena : nat) (st : thread_state)
  : scope * thread_state :=
  ({| old_head := Some arena |},
   {| arenas := st.(arenas); tls_head := Some arena |}).

(** The destructor: [tls_head = old_head]. *)
Definition scope_dtor (s : scope) (st : thread_state) : thread_state :=
  {| arenas := st.(arenas); tls_head := s.(old_head) |}.

(** ** [arena_allocator<T>] *)

Section Allocator.
(** [sizeof(T)] and [alignof(T)] of the element type. *)
Variables sizeof_T alignof_T : Z.

Definition adapter_allocate (n : Z) (st : thread_state)
  : outcome (option Z) :=
  static_allocate (SizeT.wrap (n * sizeof_T)) alignof_T st.

(** The body of [deallocate] is empty. *)
Definition adapter_deallocate (p : option Z) (n : Z) (st : thread_state)
  : thread_state := st.
End Allocator.

(** ** Client code

    Straight-line client code over the public interface.  [Scoped a body]
    is the block [{ extensible_arena::scope s{a}; body }]: the scope object
    has automatic storage, so its destructor runs when [body] is left.  The
    result of a run lists the pointers returned by the allocation calls, in
    program order. *)
Inductive prog : Type :=
  | Skip
  | Seq (p q : prog)
  | Construct (this : nat) (capacity : Z)
  | RawAllocate (n align : Z)
  | Allocate (sizeof_T alignof_T n : Z)
  | Deallocate (p : option Z) (n : Z)
  | Scoped (arena : nat) (body : prog).

Fixpoint exec (c : prog) (st : thread_state) : outcome (list (option Z)) :=
  match c with
  | Skip => Returned [] st
  | Seq p q =>
      bind (exec p st) (fun r1 st1 =>
      bind (exec q st1) (fun r2 st2 => Returned (r1 ++ r2) st2))
  | Construct this capacity =>
      Returned [] (extensible_arena this capacity st)
  | RawAllocate n align =>
      bind (static_allocate n align st) (fun r st1 => Returned [r] st1)
  | Allocate sizeof_T alignof_T n =>
      bind (adapter_allocate sizeof_T alignof_T n st)
           (fun r st1 => Returned [r] st1)
  | Deallocate p n => Returned [] (adapter_deallocate p n st)
  | Scoped arena body =>
      let '(s, st1) := scope_ctor arena st in
      bind (exec body st1) (fun r st2 => Returned r (scope_dtor s st2))
  end.

(** [Deallocate] calls removed. *)
Fixpoint strip_deallocate (c : prog) : prog :=
  match c with
  | Seq p q => Seq (strip_deallocate p) (strip_deallocate q)
  | Deallocate _ _ => Skip
  | Scoped arena body => Scoped arena (strip_deallocate body)
  | _ => c
  end.

(** [c] opens no scope. *)
Fixpoint scope_free (c : prog) : bool :=
  match c with
  | Seq p q => scope_free p && scope_free q
  | Scoped _ _ => false
  | _ => true
  end.

(** ** Reference notions used in the statements *)

(** [s] rounded up to the nearest multiple of [a], over the integers. *)
Definition round_up (s a : Z) : Z := a * ((s + a - 1) / a).

(** The values of the locals [start] and [past] of [list_node::allocate]. *)
Definition start_of (node : list_node) (align : Z) : Z :=
  Z.land (SizeT.wrap (node.(size) + align - 1))
         (SizeT.not (SizeT.wrap (align - 1))).

Definition past_of (node : list_node) (n align : Z) : Z :=
  SizeT.wrap (start_of node align + n).

(** The block invariant. *)
Definition node_inv (node : list_node) : Prop :=
  0 <= node.(size) <= node.(capacity).


(** The arithmetic of a request stays within [size_t] on this block. *)
Definition no_wrap (node : list_node) (n align : Z) : Prop :=
  1 <= align <= SizeT.max /\ 0 <= n /\
  node.(size) + (align - 1) + n <= SizeT.max.

Fixpoint all_no_wrap (reqs : list (Z * Z)) (node : list_node) : Prop :=
  match reqs with
  | [] => True
  | (n, align) :: reqs' =>
      no_wrap node n align /\ all_no_wrap reqs' (snd (allocate node n align))
  end.

(** ** Further notions: chains, series of requests, plain code *)

(** The blocks reachable from a node along [next], the node first. *)
Fixpoint chain (node : list_node) : list list_node :=
  match node with
  | Node _ _ nx =>
      node :: match nx with
              | Some below => chain below
              | None => []
              end
  end.

(** The regions [(start, n)] a block hands out when it is asked the
    requests [reqs] one after the other. *)
Fixpoint regions (reqs : list (Z * Z)) (node : list_node) : list (Z * Z) :=
  match reqs with
  | [] => []
  | (n, align) :: reqs' =>
      match allocate node n align with
      | (Some start, node') => (start, n) :: regions reqs' node'
      | (None, node') => regions reqs' node'
      end
  end.

(** A series of calls of [extensible_arena::allocate(pointer&, ...)] on the
    same [head]: the pointers returned and the head at the end. *)
Fixpoint run_arena (reqs : list (Z * Z)) (head : list_node)
  : list (option Z) * list_node :=
  match reqs with
  | [] => ([], head)
  | (n, align) :: reqs' =>
      let '(r, head') := arena_allocate head n align in
      let '(rs, head'') := run_arena reqs' head' in
      (r :: rs, head'')
  end.

(** [c] opens no scope and constructs no arena. *)
Fixpoint plain (c : prog) : bool :=
  match c with
  | Seq p q => plain p && plain q
  | Scoped _ _ | Construct _ _ => false
  | _ => true
  end.

(** * Properties *)

(** Closed comparisons and conjunctions of them. *)
Ltac by_computation :=
  vm_compute; repeat split; first [reflexivity | discriminate].

Example alloc_first : allocate (make 64) 40 1 = (Some 0, Node 64 40 None).
Proof. reflexivity. Qed.

Example alloc_second :
  arena_allocate (Node 64 40 None) 40 1
  = (Some 0, Node 40 40 (Some (Node 64 40 None))).
Proof. reflexivity. Qed.

(** ** Facts about [size_t] arithmetic *)

Lemma modulus_pos : 0 < SizeT.modulus.
Proof. reflexivity. Qed.

Lemma wrap_in_range z : SizeT.in_range (SizeT.wrap z).
Proof. apply Z.mod_pos_bound, modulus_pos. Qed.

Lemma wrap_small z : SizeT.in_range z -> SizeT.wrap z = z.
Proof. intros H. apply Z.mod_small, H. Qed.

Lemma not_in_range x : SizeT.in_range x -> SizeT.not x = SizeT.max - x.
Proof.
  intros [H0 H1]. unfold SizeT.not, SizeT.wrap, SizeT.max.
  rewrite Z.lnot_eq_pred_opp.
  symmetry. apply (Z.mod_unique _ _ (-1)); lia.
Qed.

(** Masking with a complemented [size_t] value is a bit difference. *)
Lemma land_not_ldiff x m :
  SizeT.in_range x -> Z.land x (SizeT.not m) = Z.ldiff x m.
Proof.
  intros Hx. unfold SizeT.not, SizeT.wrap, SizeT.modulus.
  rewrite <- Z.land_ones by (unfold SizeT.bits; lia).
  rewrite (Z.land_comm (Z.lnot m)), Z.land_assoc.
  rewrite Z.land_ones by (unfold SizeT.bits; lia).
  fold SizeT.modulus. fold (SizeT.wrap x). rewrite wrap_small by exact Hx.
  symmetry. apply Z.ldiff_land.
Qed.

Lemma ldiff_sub_land x m : Z.ldiff x m = x - Z.land x m.
Proof.
  rewrite (Z.sub_nocarry_ldiff x (Z.land x m)).
  - apply Z.bits_inj'. intros i Hi.
    rewrite !Z.ldiff_spec, Z.land_spec.
    destruct (Z.testbit x i), (Z.testbit m i); reflexivity.
  - apply Z.bits_inj'. intros i Hi.
    rewrite Z.ldiff_spec, Z.land_spec, Z.bits_0.
    destruct (Z.testbit x i), (Z.testbit m i); reflexivity.
Qed.

Lemma land_bounds x m : 0 <= x -> 0 <= m -> 0 <= Z.land x m <= m.
Proof.
  intros Hx Hm. split.
  - apply Z.land_nonneg. now left.
  - pose proof (ldiff_sub_land m x) as E.
    assert (0 <= Z.ldiff m x) by (apply Z.ldiff_nonneg; now left).
    rewrite (Z.land_comm x m). lia.
Qed.

(** The masking step of [list_node::allocate] clears the bits of
    [align - 1]: it subtracts at most [align - 1]. *)
Lemma mask_bounds x align :
  SizeT.in_range x -> 1 <= align < SizeT.modulus ->
  let start := Z.land x (SizeT.not (SizeT.wrap (align - 1))) in
  x - (align - 1) <= start <= x.
Proof.
  intros Hx Ha. cbv zeta.
  rewrite wrap_small by (unfold SizeT.in_range; lia).
  rewrite land_not_ldiff by exact Hx. rewrite ldiff_sub_land.
  destruct Hx as [Hx0 Hx1].
  pose proof (land_bounds x (align - 1) Hx0 ltac:(lia)). lia.
Qed.

(** For a power of two the masking step subtracts the remainder. *)
Lemma mask_pow2 x k :
  SizeT.in_range x -> 0 <= k < SizeT.bits ->
  Z.land x (SizeT.not (SizeT.wrap (2 ^ k - 1))) = x - x mod 2 ^ k.
Proof.
  intros Hx Hk.
  assert (2 ^ k < SizeT.modulus)
    by (apply Z.pow_lt_mono_r; unfold SizeT.bits in *; lia).
  assert (0 < 2 ^ k) by (apply Z.pow_pos_nonneg; lia).
  rewrite wrap_small by (unfold SizeT.in_range; lia).
  rewrite land_not_ldiff by exact Hx. rewrite ldiff_sub_land.
  replace (2 ^ k - 1) with (Z.ones k) by (rewrite Z.ones_equiv; lia).
  rewrite Z.land_ones by lia. reflexivity.
Qed.

Lemma is_pow2_exp a :
  SizeT.is_pow2 a -> exists k, 0 <= k < SizeT.bits /\ a = 2 ^ k.
Proof.
  intros [[Hlo Hhi] E]. exists (Z.log2 a). split; [|now symmetry].
  split; [apply Z.log2_nonneg|]. now apply Z.log2_lt_pow2.
Qed.

Lemma pow2_divides_modulus k :
  0 <= k < SizeT.bits -> (2 ^ k | SizeT.modulus).
Proof.
  intros Hk. exists (2 ^ (SizeT.bits - k)). unfold SizeT.modulus.
  rewrite <- Z.pow_add_r by lia. f_equal. lia.
Qed.

(** ** Facts about [round_up] *)

Lemma round_up_spec s a :
  0 < a -> (a | round_up s a) /\ s <= round_up s a < s + a.
Proof.
  intros Ha. unfold round_up. split.
  - exists ((s + a - 1) / a). lia.
  - pose proof (Z.mul_div_le (s + a - 1) a Ha).
    pose proof (Z.mul_succ_div_gt (s + a - 1) a Ha). lia.
Qed.

Lemma round_up_least s a m :
  0 < a -> (a | m) -> s <= m -> round_up s a <= m.
Proof.
  intros Ha [q ->] Hs. unfold round_up.
  assert ((s + a - 1) / a <= q); [|nia].
  apply Z.lt_succ_r. apply Z.div_lt_upper_bound; lia.
Qed.

(** The bit trick of [list_node::allocate] computes [round_up], reduced to
    [size_t]. *)
Lemma start_round_up s k :
  SizeT.in_range s -> 0 <= k < SizeT.bits ->
  Z.land (SizeT.wrap (s + 2 ^ k - 1)) (SizeT.not (SizeT.wrap (2 ^ k - 1)))
  = SizeT.wrap (round_up s (2 ^ k)).
Proof.
  intros Hs Hk.
  assert (Ha : 0 < 2 ^ k) by (apply Z.pow_pos_nonneg; lia).
  rewrite mask_pow2 by (auto using wrap_in_range).
  unfold SizeT.wrap at 2. rewrite Z.mod_mod_divide by (now apply pow2_divides_modulus).
  unfold round_up.
  pose proof (Z.div_mod (s + 2 ^ k - 1) (2 ^ k) ltac:(lia)) as E.
  replace (2 ^ k * ((s + 2 ^ k - 1) / 2 ^ k))
    with ((s + 2 ^ k - 1) - (s + 2 ^ k - 1) mod 2 ^ k) by lia.
  set (y := s + 2 ^ k - 1) in *. set (r := y mod 2 ^ k).
  assert (Hr : 0 <= r < 2 ^ k) by (apply Z.mod_pos_bound; lia).
  pose proof (wrap_in_range y) as Hw.
  pose proof (pow2_divides_modulus k Hk) as [c Hc].
  (* [wrap y - r] is the representative of [y - r] in range *)
  unfold SizeT.wrap in *.
  pose proof (Z.div_mod y SizeT.modulus ltac:(pose proof modulus_pos; lia)) as Ey.
  apply (Z.mod_unique _ _ (y / SizeT.modulus)); [|lia].
  left. split; [|unfold SizeT.in_range in Hw; lia].
  (* [r <= y mod modulus], since [r = (y mod modulus) mod 2^k] *)
  assert (r = (y mod SizeT.modulus) mod 2 ^ k) as ->.
  { unfold r. symmetry. apply Z.mod_mod_divide. now exists c. }
  apply Z.le_0_sub. apply Z.mod_le; [apply Hw | lia].
Qed.

(** ** Block-level allocation *)

Lemma allocate_eq node n align :
  allocate node n align =
  if past_of node n align >? node.(capacity) then (None, node)
  else (Some (start_of node align),
        {| capacity := node.(capacity); size := past_of node n align;
           next := node.(next) |}).
Proof. reflexivity. Qed.

Lemma allocate_fail node n align :
  node.(capacity) < past_of node n align ->
  allocate node n align = (None, node).
Proof.
  intros H. rewrite allocate_eq.
  destruct (Z.gtb_spec (past_of node n align) node.(capacity)); [reflexivity | lia].
Qed.

Lemma allocate_success node n align :
  past_of node n align <= node.(capacity) ->
  allocate node n align =
  (Some (start_of node align),
   {| capacity := node.(capacity); size := past_of node n align;
      next := node.(next) |}).
Proof.
  intros H. rewrite allocate_eq.
  destruct (Z.gtb_spec (past_of node n align) node.(capacity)); [lia | reflexivity].
Qed.

Lemma allocate_Some_inv node n align p node' :
  allocate node n align = (Some p, node') ->
  past_of node n align <= node.(capacity) /\ p = start_of node align /\
  node' = {| capacity := node.(capacity); size := past_of node n align;
             next := node.(next) |}.
Proof.
  rewrite allocate_eq.
  destruct (Z.gtb_spec (past_of node n align) node.(capacity)); intros E;
    inversion E; subst; auto.
Qed.

Lemma allocate_None_inv node n align node' :
  allocate node n align = (None, node') ->
  node.(capacity) < past_of node n align /\ node' = node.
Proof.
  rewrite allocate_eq.
  destruct (Z.gtb_spec (past_of node n align) node.(capacity)); intros E;
    inversion E; subst; auto.
Qed.

Lemma start_of_in_range node align : SizeT.in_range (start_of node align).
Proof.
  unfold start_of.
  pose proof (wrap_in_range (node.(size) + align - 1)) as [H0 H1].
  rewrite land_not_ldiff by (split; assumption). rewrite ldiff_sub_land.
  pose proof (wrap_in_range (align - 1)) as [H2 H3].
  assert (0 <= Z.ldiff (SizeT.wrap (size node + align - 1)) (SizeT.wrap (align - 1)))
    by (apply Z.ldiff_nonneg; now left).
  rewrite ldiff_sub_land in H.
  pose proof (land_bounds _ _ H0 H2).
  unfold SizeT.in_range. lia.
Qed.

Lemma start_of_pow2 node align :
  SizeT.in_range node.(size) -> SizeT.is_pow2 align ->
  start_of node align = SizeT.wrap (round_up node.(size) align).
Proof.
  intros Hs Ha. destruct (is_pow2_exp _ Ha) as (k & Hk & ->).
  now apply start_round_up.
Qed.

(** Without wrap-around the start lies between [size] and
    [size + align - 1], for any non-zero alignment. *)
Lemma start_of_no_wrap node n align :
  0 <= node.(size) -> no_wrap node n align ->
  node.(size) <= start_of node align <= node.(size) + (align - 1) /\
  past_of node n align = start_of node align + n.
Proof.
  intros Hs (Ha & Hn & Hw). unfold past_of, start_of.
  unfold SizeT.max in *.
  assert (Hx : SizeT.in_range (node.(size) + align - 1))
    by (unfold SizeT.in_range; lia).
  rewrite (wrap_small _ Hx).
  pose proof (mask_bounds _ align Hx ltac:(lia)) as Hb. cbv zeta in Hb.
  split; [lia|]. apply wrap_small. unfold SizeT.in_range. lia.
Qed.




(** C5: for a power-of-two alignment [a], the offset returned by a
    successful [list_node::allocate] is a multiple of [a]; it is the block's
    [size] rounded up to the nearest multiple of [a], as a [size_t] value
    (and that rounding itself whenever it is representable). *)
Theorem allocate_aligned :
  forall node n a p node',
    SizeT.in_range node.(size) -> SizeT.is_pow2 a ->
    allocate node n a = (Some p, node') ->
    (a | p) /\
    p = SizeT.wrap (round_up node.(size) a) /\
    (round_up node.(size) a <= SizeT.max -> p = round_up node.(size) a).
Proof.
  intros node n a p node' Hs Ha Halloc.
  apply allocate_Some_inv in Halloc as (_ & -> & _).
  pose proof (start_of_pow2 node a Hs Ha) as E.
  destruct (is_pow2_exp a Ha) as (k & Hk & ->).
  assert (Hpos : 0 < 2 ^ k) by (apply Z.pow_pos_nonneg; lia).
  destruct (round_up_spec node.(size) (2 ^ k) Hpos) as [Hdiv Hbnd].
  split; [|split].
  - rewrite E. unfold SizeT.wrap.
    apply Z.mod_divide; [lia|].
    rewrite Z.mod_mod_divide by (now apply pow2_divides_modulus).
    apply Z.mod_divide; [lia | exact Hdiv].
  - exact E.
  - intros Hfit. rewrite E. apply wrap_small.
    destruct Hs. unfold SizeT.in_range, SizeT.max in *. lia.
Qed.

Lemma allocate_aligned_witness :
  (8 | 16) /\ 16 = SizeT.wrap (round_up 13 8) /\
  (round_up 13 8 <= SizeT.max -> 16 = round_up 13 8).
Proof.
  apply (allocate_aligned (Node 64 13 None) 24 8 16 (Node 64 40 None)).
  - vm_compute. split; [discriminate | reflexivity].
  - vm_compute. split; [split; reflexivity | reflexivity].
  - vm_compute. reflexivity.
Defined.




(** ** The block invariant *)


Lemma allocate_inv node n align :
  node_inv node ->
  node_inv (snd (allocate node n align)) /\
  (snd (allocate node n align)).(capacity) = node.(capacity) /\
  (snd (allocate node n align)).(next) = node.(next).
Proof.
  intros Hinv. rewrite allocate_eq.
  destruct (Z.gtb_spec (past_of node n align) node.(capacity)); cbn.
  - auto.
  - repeat split; try assumption.
    apply (wrap_in_range (start_of node align + n)).
Qed.



(** ** Chain growth *)

Lemma arena_allocate_hit head n align p head' :
  allocate head n align = (Some p, head') ->
  arena_allocate head n align = (Some p, head').
Proof. intros H. unfold arena_allocate. now rewrite H. Qed.

Lemma arena_allocate_grow head n align :
  fst (allocate head n align) = None ->
  arena_allocate head n align =
  allocate {| capacity := Z.min head.(capacity) n; size := 0;
              next := Some head |} n align.
Proof.
  intros H. unfold arena_allocate.
  destruct (allocate head n align) as [[p|] head'] eqn:E; [discriminate|].
  apply allocate_None_inv in E as [_ ->]. reflexivity.
Qed.

(** The start offset in a block with [size = 0] is 0, whatever [align]. *)
Lemma start_of_empty c nx align :
  start_of {| capacity := c; size := 0; next := nx |} align = 0.
Proof.
  unfold start_of. cbn [size]. replace (0 + align - 1) with (align - 1) by lia.
  rewrite land_not_ldiff by apply wrap_in_range. apply Z.ldiff_diag.
Qed.




(** ** Growth policy of [extensible_arena::allocate] *)

(** The capacity of the head after a call: the old head's when it served
    the request, and the smaller of that capacity and [n] when a block was
    added. *)
Lemma arena_allocate_capacity head n align :
  (snd (arena_allocate head n align)).(capacity) =
  match fst (allocate head n align) with
  | Some _ => head.(capacity)
  | None => Z.min head.(capacity) n
  end.
Proof.
  destruct (allocate head n align) as [[p|] head'] eqn:E.
  - rewrite (arena_allocate_hit _ _ _ _ _ E). cbn.
    now apply allocate_Some_inv in E as (_ & _ & ->).
  - rewrite arena_allocate_grow by (now rewrite E). cbn [fst].
    match goal with
    | |- capacity (snd (allocate ?nh _ _)) = _ =>
        rewrite allocate_eq;
        destruct (past_of nh n align >? capacity nh); reflexivity
    end.
Qed.

(** A request larger than the head's capacity that the head refuses is
    refused by the added block as well. *)
Lemma arena_allocate_oversized head n align :
  SizeT.in_range n -> head.(capacity) < n ->
  fst (allocate head n align) = None ->
  fst (arena_allocate head n align) = None.
Proof.
  intros Hn Hbig Hfail. rewrite arena_allocate_grow by exact Hfail.
  rewrite allocate_fail; [reflexivity|].
  unfold past_of. rewrite start_of_empty. cbn [capacity].
  rewrite Z.add_0_l, wrap_small by exact Hn. lia.
Qed.

(** C2, on the code: an arena of capacity 64 whose head holds 40 bytes
    answers a second 40-byte request with a new head of capacity
    [min 64 40 = 40].  With 60 bytes held, an 8-byte request adds a block of
    capacity 8. *)
Theorem grown_block_capacity :
  let head := snd (allocate (make 64) 40 1) in
  head = Node 64 40 None /\
  allocate head 40 1 = (None, head) /\
  arena_allocate head 40 1 = (Some 0, Node 40 40 (Some head)) /\
  capacity (snd (arena_allocate head 40 1)) = Z.min 64 40 /\
  capacity (snd (arena_allocate head 40 1)) <> Z.max 64 40 /\
  arena_allocate (Node 64 60 None) 8 1
  = (Some 0, Node 8 8 (Some (Node 64 60 None))).
Proof. by_computation. Qed.

(** C3, on the code: with a scope active on an arena of capacity 64, a
    100-byte request returns [nullptr]; the arena is left with a second,
    empty block of capacity 64. *)
Theorem oversized_request_returns_null :
  exists st,
    exec (Seq (Construct 0%nat 64) (Scoped 0%nat (RawAllocate 100 1)))
         thread_start
    = Returned [None] st /\
    st.(arenas) !! 0%nat = Some (Node 64 0 (Some (Node 64 0 None))).
Proof. eexists. split; reflexivity. Qed.

(** ** Scopes and the thread-local binding *)

Lemma static_allocate_tls n align st r st' :
  static_allocate n align st = Returned r st' ->
  st'.(tls_head) = st.(tls_head).
Proof.
  unfold static_allocate.
  destruct (tls_head st) as [slot|] eqn:Et; [|discriminate].
  destruct (arenas st !! slot) as [head|]; [|discriminate].
  destruct (arena_allocate head n align) as [start head'].
  intros E. inversion E; subst. cbn. congruence.
Qed.

Lemma static_allocate_assert n align st :
  static_allocate n align st = AssertFailed <-> st.(tls_head) = None.
Proof.
  unfold static_allocate. split.
  - destruct (tls_head st) as [slot|]; [|reflexivity].
    destruct (arenas st !! slot) as [head|]; [|discriminate].
    destruct (arena_allocate head n align). discriminate.
  - intros ->. reflexivity.
Qed.

(** Once a binding is installed, no later step of a program removes it,
    and no allocation in the program fails the assertion. *)
Lemma exec_bound c :
  forall st,
    st.(tls_head) <> None ->
    exec c st <> AssertFailed /\
    (forall r st', exec c st = Returned r st' -> st'.(tls_head) <> None).
Proof.
  induction c as [ | p IHp q IHq | this cap | n align | sz al n | ptr n
                 | arena body IH ]; intros st Hb; cbn [exec].
  - split; [discriminate|]. intros r st' E. now inversion E; subst.
  - destruct (IHp st Hb) as [Hp1 Hp2].
    destruct (exec p st) as [r1 st1| |] eqn:Ep; cbn [bind];
      [|congruence|split; discriminate].
    destruct (IHq st1 (Hp2 _ _ eq_refl)) as [Hq1 Hq2].
    destruct (exec q st1) as [r2 st2| |] eqn:Eq; cbn [bind];
      [|congruence|split; discriminate].
    split; [discriminate|]. intros r st' E. inversion E; subst.
    exact (Hq2 _ _ eq_refl).
  - split; [discriminate|]. intros r st' E. now inversion E; subst.
  - destruct (static_allocate n align st) as [r1 st1| |] eqn:Ea; cbn [bind].
    + split; [discriminate|]. intros r st' E. inversion E; subst.
      now rewrite (static_allocate_tls _ _ _ _ _ Ea).
    + now apply static_allocate_assert in Ea.
    + split; discriminate.
  - unfold adapter_allocate.
    destruct (static_allocate (SizeT.wrap (n * sz)) al st)
      as [r1 st1| |] eqn:Ea; cbn [bind].
    + split; [discriminate|]. intros r st' E. inversion E; subst.
      now rewrite (static_allocate_tls _ _ _ _ _ Ea).
    + now apply static_allocate_assert in Ea.
    + split; discriminate.
  - split; [discriminate|]. intros r st' E. now inversion E; subst.
  - cbn [scope_ctor].
    destruct (IH {| arenas := arenas st; tls_head := Some arena |})
      as [H1 H2]; [discriminate|].
    destruct (exec body _) as [r1 st1| |]; cbn [bind];
      [|congruence|split; discriminate].
    split; [discriminate|]. intros r st' E. inversion E; subst. discriminate.
Qed.

(** Code that opens no scope installs no binding: started without one, it
    stops at the assertion or ends without one. *)
Lemma exec_unbound c :
  forall st,
    scope_free c = true -> st.(tls_head) = None ->
    exec c st = AssertFailed \/
    exists r st', exec c st = Returned r st' /\ st'.(tls_head) = None.
Proof.
  induction c as [ | p IHp q IHq | this cap | n align | sz al n | ptr n
                 | arena body IH ]; intros st Hfree Hnone; cbn [exec].
  - right. eauto.
  - cbn in Hfree. apply andb_true_iff in Hfree as [Hp Hq].
    destruct (IHp st Hp Hnone) as [-> | (r1 & st1 & -> & H1)];
      [now left|]. cbn [bind].
    destruct (IHq st1 Hq H1) as [-> | (r2 & st2 & -> & H2)];
      [now left|]. cbn [bind]. right. eauto.
  - right. eauto.
  - left. now rewrite (proj2 (static_allocate_assert n align st) Hnone).
  - left. unfold adapter_allocate.
    now rewrite (proj2 (static_allocate_assert _ al st) Hnone).
  - right. eauto.
  - discriminate.
Qed.

(** C1, on the code: arenas A (at address 0) and B (at address 1), scope
    [S1] on A, inside it scope [S2] on B.  After [S2] is closed the binding
    is B, and the 8-byte allocation made before [S1] closes is served by B
    while A stays empty.  After [S1] is closed the binding is A, not the
    null value from before [S1], and a further allocation passes the
    assertion and is served by A. *)
Theorem nested_scopes_restore :
  let st0 := extensible_arena 1 64 (extensible_arena 0 64 thread_start) in
  let '(s1, st1) := scope_ctor 0 st0 in
  let '(s2, st2) := scope_ctor 1 st1 in
  let st3 := scope_dtor s2 st2 in
  st0.(tls_head) = None /\ st1.(tls_head) = Some 0%nat /\
  st3.(tls_head) = Some 1%nat /\
  exists st4,
    static_allocate 8 1 st3 = Returned (Some 0) st4 /\
    st4.(arenas) !! 0%nat = Some (Node 64 0 None) /\
    st4.(arenas) !! 1%nat = Some (Node 64 8 None) /\
    let st5 := scope_dtor s1 st4 in
    st5.(tls_head) = Some 0%nat /\
    exists st6,
      static_allocate 8 1 st5 = Returned (Some 0) st6 /\
      st6.(arenas) !! 0%nat = Some (Node 64 8 None).
Proof.
  cbn. repeat split. eexists. repeat split.
  eexists. split; reflexivity.
Qed.

(** C10: the constructor of a scope on [arena] stores the address of
    [arena]'s own [head_] in [old_head], whatever [tls_head] was; so the
    destructor, in whatever state it runs, leaves [tls_head] pointing to
    that [head_], a non-null value; the same holds after a whole scoped
    block that runs to its end. *)
Theorem scope_saves_own_head :
  forall arena st,
    (fst (scope_ctor arena st)).(old_head) = Some arena /\
    (snd (scope_ctor arena st)).(tls_head) = Some arena /\
    (forall st',
        (scope_dtor (fst (scope_ctor arena st)) st').(tls_head) = Some arena) /\
    (forall body r st',
        exec (Scoped arena body) st = Returned r st' ->
        st'.(tls_head) = Some arena /\ st'.(tls_head) <> None).
Proof.
  intros arena st. split; [reflexivity|]. split; [reflexivity|].
  split; [reflexivity|].
  intros body r st' H. cbn [exec scope_ctor] in H.
  destruct (exec body _) as [r1 st1| |]; cbn [bind] in H; try discriminate.
  inversion H; subst. cbn. split; [reflexivity | discriminate].
Qed.

Lemma scope_saves_own_head_witness :
  let st := extensible_arena 0 64 thread_start in
  st.(tls_head) = None /\
  exists st',
    exec (Scoped 0%nat (RawAllocate 8 1)) st = Returned [Some 0] st' /\
    st'.(tls_head) = Some 0%nat /\ st'.(tls_head) <> None.
Proof.
  cbn zeta. split; [reflexivity|]. eexists. split; [reflexivity|].
  refine (proj2 (proj2 (proj2
    (scope_saves_own_head 0%nat (extensible_arena 0 64 thread_start))))
    (RawAllocate 8 1) [Some 0] _ _).
  reflexivity.
Defined.

(** The assertion fails exactly when [tls_head] is null; code that has
    opened no scope stops at it; inside a scoped block it never fires. *)
Lemma assert_fires_iff_null :
  (forall n align st,
      static_allocate n align st = AssertFailed <-> st.(tls_head) = None) /\
  (forall c n align,
      scope_free c = true ->
      exec (Seq c (RawAllocate n align)) thread_start = AssertFailed) /\
  (forall arena body st, exec (Scoped arena body) st <> AssertFailed).
Proof.
  split; [exact static_allocate_assert|]. split.
  - intros c n align Hfree. cbn [exec].
    destruct (exec_unbound c thread_start Hfree eq_refl)
      as [-> | (r & st & -> & Hnone)]; [reflexivity|].
    cbn [bind].
    now rewrite (proj2 (static_allocate_assert n align st) Hnone).
  - intros arena body st. cbn [exec scope_ctor].
    destruct (exec_bound body {| arenas := arenas st; tls_head := Some arena |})
      as [Hne _]; [discriminate|].
    destruct (exec body _); cbn [bind]; congruence.
Qed.

(** C8, on the code: on a thread that has constructed an arena and never
    opened a scope the call stops at the assertion.  Once a scope on arena
    A (at address 0) has been opened and closed, no scope is active, yet
    the same call passes the assertion and is served by A; with a scope on
    B (at address 1) nested in the scope on A and both closed, the call is
    again served by A and B stays empty. *)
Theorem assert_passes_after_scope :
  exec (Seq (Construct 0%nat 64) (RawAllocate 8 1)) thread_start
  = AssertFailed /\
  (exists st,
      exec (Seq (Construct 0%nat 64)
                (Seq (Scoped 0%nat Skip) (RawAllocate 8 1)))
           thread_start
      = Returned [Some 0] st /\
      st.(tls_head) = Some 0%nat /\
      st.(arenas) !! 0%nat = Some (Node 64 8 None)) /\
  (exists st,
      exec (Seq (Construct 0%nat 64)
                (Seq (Construct 1%nat 64)
                     (Seq (Scoped 0%nat (Scoped 1%nat Skip))
                          (RawAllocate 8 1))))
           thread_start
      = Returned [Some 0] st /\
      st.(tls_head) = Some 0%nat /\
      st.(arenas) !! 0%nat = Some (Node 64 8 None) /\
      st.(arenas) !! 1%nat = Some (Node 64 0 None)).
Proof.
  split; [reflexivity|]. split.
  - eexists. repeat split.
  - eexists. repeat split.
Qed.

(** ** [deallocate] *)

Lemma exec_strip_deallocate c :
  forall st, exec (strip_deallocate c) st = exec c st.
Proof.
  induction c as [ | p IHp q IHq | | | | | arena body IH ]; intros st;
    cbn [strip_deallocate exec]; try reflexivity.
  - rewrite IHp. destruct (exec p st) as [r1 st1| |]; cbn [bind];
      try reflexivity.
    now rewrite IHq.
  - cbn [scope_ctor]. now rewrite IH.
Qed.

(** C9: [deallocate] returns the state it was given, for every pointer and
    count and however often it is called; a program and the same program
    with its [deallocate] calls removed return the same pointers from
    their allocations and end in the same state. *)
Theorem deallocate_noop :
  (forall p n st, adapter_deallocate p n st = st) /\
  (forall k p n st, Nat.iter k (adapter_deallocate p n) st = st) /\
  (forall c st, exec (strip_deallocate c) st = exec c st) /\
  (forall p n c st,
      exec (Seq (Deallocate p n) c) st = exec c st).
Proof.
  split; [reflexivity|]. split; [|split].
  - induction k as [|k IH]; intros p n st; [reflexivity|].
    cbn [Nat.iter]. unfold adapter_deallocate at 1. exact (IH p n st).
  - intros c st. apply exec_strip_deallocate.
  - intros p n c st. cbn [exec bind]. unfold adapter_deallocate.
    destruct (exec c st); reflexivity.
Qed.

(** * Further properties of the allocator *)

(** ** One block *)

Lemma allocate_region node n align p node' :
  node_inv node -> no_wrap node n align ->
  allocate node n align = (Some p, node') ->
  node.(size) <= p /\ p + n = node'.(size) /\
  node'.(size) <= node.(capacity) /\ node'.(capacity) = node.(capacity).
Proof.
  intros [Hs _] Hnw Halloc.
  destruct (start_of_no_wrap node n align Hs Hnw) as [Hb Hp].
  apply allocate_Some_inv in Halloc as (Hle & -> & ->). cbn. lia.
Qed.

Lemma regions_bounds reqs :
  forall node,
    node_inv node -> all_no_wrap reqs node ->
    Forall (fun r => node.(size) <= fst r /\
                     fst r + snd r <= node.(capacity))
           (regions reqs node).
Proof.
  induction reqs as [|[n align] reqs IH]; intros node Hinv Hall;
    cbn [regions]; [constructor|].
  cbn in Hall. destruct Hall as [Hnw Hall].
  destruct (allocate_inv node n align Hinv) as (Hinv' & Hcap' & _).
  destruct (allocate node n align) as [[p|] node'] eqn:Halloc; cbn in *.
  - destruct (allocate_region _ _ _ _ _ Hinv Hnw Halloc)
      as (Hlo & Hend & Hhi & _).
    constructor; [cbn; lia|].
    eapply Forall_impl; [exact (IH node' Hinv' Hall)|].
    intros [q m]; cbn. destruct Hnw as (_ & Hn & _). lia.
  - apply allocate_None_inv in Halloc as [_ ->]. now apply IH.
Qed.

(** X1: the regions one block hands out to requests that do not wrap lie
    inside its buffer, above what was in use before, and each ends before
    the next begins: no two of them overlap. *)
Theorem regions_disjoint :
  forall reqs node,
    node_inv node -> all_no_wrap reqs node ->
    Forall (fun r => node.(size) <= fst r /\
                     fst r + snd r <= node.(capacity))
           (regions reqs node) /\
    StronglySorted (fun r1 r2 => fst r1 + snd r1 <= fst r2)
                   (regions reqs node).
Proof.
  intros reqs node Hinv Hall. split; [now apply regions_bounds|].
  revert node Hinv Hall.
  induction reqs as [|[n align] reqs IH]; intros node Hinv Hall;
    cbn [regions]; [constructor|].
  cbn in Hall. destruct Hall as [Hnw Hall].
  destruct (allocate_inv node n align Hinv) as (Hinv' & Hcap' & _).
  destruct (allocate node n align) as [[p|] node'] eqn:Halloc; cbn in *.
  - destruct (allocate_region _ _ _ _ _ Hinv Hnw Halloc)
      as (Hlo & Hend & Hhi & _).
    constructor; [now apply IH|].
    eapply Forall_impl; [exact (regions_bounds reqs node' Hinv' Hall)|].
    intros [q m]; cbn. lia.
  - apply allocate_None_inv in Halloc as [_ ->]. now apply IH.
Qed.

Lemma regions_disjoint_witness :
  let reqs := [(5, 1); (8, 8); (100, 1); (3, 2); (40, 16)] in
  regions reqs (make 64) = [(0, 5); (8, 8); (16, 3)] /\
  StronglySorted (fun r1 r2 => fst r1 + snd r1 <= fst r2)
                 (regions reqs (make 64)).
Proof.
  split; [reflexivity|].
  apply (regions_disjoint [(5, 1); (8, 8); (100, 1); (3, 2); (40, 16)]
                          (make 64)); by_computation.
Defined.

Lemma start_of_align1 node :
  SizeT.in_range node.(size) -> start_of node 1 = node.(size).
Proof.
  intros Hs. unfold start_of.
  replace (node.(size) + 1 - 1) with node.(size) by lia.
  rewrite (wrap_small _ Hs).
  change (SizeT.wrap (1 - 1)) with 0.
  rewrite land_not_ldiff by exact Hs. apply Z.ldiff_0_r.
Qed.

(** X2: with [align = 1] there is no padding: a request that does not wrap
    is served at offset [size] exactly when [n] is at most the room left,
    [capacity - size], so a request for all the room left succeeds and
    fills the block; otherwise the block is left as it was. *)
Theorem allocate_bytes :
  forall node n,
    node_inv node -> no_wrap node n 1 ->
    allocate node n 1 =
    if n <=? node.(capacity) - node.(size)
    then (Some node.(size),
          {| capacity := node.(capacity); size := node.(size) + n;
             next := node.(next) |})
    else (None, node).
Proof.
  intros node n [Hs Hc] (Ha & Hn & Hw). unfold SizeT.max in *.
  assert (Hstart : start_of node 1 = node.(size))
    by (apply start_of_align1; unfold SizeT.in_range; lia).
  assert (Hpast : past_of node n 1 = node.(size) + n).
  { unfold past_of. rewrite Hstart. apply wrap_small.
    unfold SizeT.in_range. lia. }
  destruct (Z.leb_spec n (node.(capacity) - node.(size))).
  - rewrite allocate_success by lia. now rewrite Hstart, Hpast.
  - apply allocate_fail. lia.
Qed.

Lemma allocate_bytes_witness :
  allocate (Node 64 40 None) 24 1 = (Some 40, Node 64 64 None) /\
  allocate (Node 64 40 None) 25 1 = (None, Node 64 40 None).
Proof.
  split.
  - apply (allocate_bytes (Node 64 40 None) 24); by_computation.
  - apply (allocate_bytes (Node 64 40 None) 25); by_computation.
Defined.

(** X3: a block that is full ([size = capacity]) refuses every request of
    at least one byte that does not wrap, whatever the alignment, and is
    left as it was. *)
Theorem full_block_refuses :
  forall node n align,
    node_inv node -> node.(size) = node.(capacity) ->
    1 <= n -> no_wrap node n align ->
    allocate node n align = (None, node).
Proof.
  intros node n align [Hs _] Hfull Hn Hnw.
  destruct (start_of_no_wrap node n align Hs Hnw) as [Hb Hp].
  apply allocate_fail. lia.
Qed.

Lemma full_block_refuses_witness :
  allocate (Node 64 64 None) 1 8 = (None, Node 64 64 None).
Proof.
  apply full_block_refuses; by_computation.
Defined.

Lemma round_up_multiple s a : 0 < a -> (a | s) -> round_up s a = s.
Proof.
  intros Ha [q ->]. unfold round_up.
  replace (q * a + a - 1) with ((a - 1) + q * a) by lia.
  rewrite Z.div_add by lia. rewrite Z.div_small by lia. lia.
Qed.

Lemma start_of_divides node a :
  SizeT.in_range node.(size) -> SizeT.is_pow2 a -> (a | start_of node a).
Proof.
  intros Hs Ha. rewrite (start_of_pow2 node a Hs Ha).
  destruct (is_pow2_exp a Ha) as (k & Hk & ->).
  assert (Hpos : 0 < 2 ^ k) by (apply Z.pow_pos_nonneg; lia).
  unfold SizeT.wrap. apply Z.mod_divide; [lia|].
  rewrite Z.mod_mod_divide by (now apply pow2_divides_modulus).
  apply Z.mod_divide; [lia|]. apply (round_up_spec _ _ Hpos).
Qed.

(** X4: a request of zero bytes only pads [size] up to the alignment (a
    power of two); asking again changes nothing and returns the same
    address, so zero-byte allocations do not get distinct addresses. *)
Theorem allocate_zero_idempotent :
  forall node a,
    SizeT.in_range node.(size) -> SizeT.is_pow2 a ->
    allocate (snd (allocate node 0 a)) 0 a = allocate node 0 a.
Proof.
  intros node a Hs Ha.
  destruct (allocate node 0 a) as [[p|] node'] eqn:Halloc; cbn [snd].
  - pose proof (start_of_divides node a Hs Ha) as Hdiv.
    apply allocate_Some_inv in Halloc as (Hle & Hp & ->).
    rewrite <- Hp in Hdiv.
    pose proof (start_of_in_range node a) as Hr. rewrite <- Hp in Hr.
    assert (Hpast : past_of node 0 a = p).
    { unfold past_of. rewrite <- Hp, Z.add_0_r. now apply wrap_small. }
    rewrite Hpast in *.
    set (node' := {| capacity := capacity node; size := p; next := next node |}).
    assert (Hstart' : start_of node' a = p).
    { rewrite start_of_pow2 by (assumption || exact Hr). cbn [node' size].
      rewrite round_up_multiple by (destruct Ha as [[? ?] ?]; assumption).
      now apply wrap_small. }
    assert (Hpast' : past_of node' 0 a = p).
    { unfold past_of. rewrite Hstart', Z.add_0_r. now apply wrap_small. }
    rewrite allocate_success by (rewrite Hpast'; exact Hle).
    now rewrite Hstart', Hpast'.
  - apply allocate_None_inv in Halloc as [Hlt ->]. now apply allocate_fail.
Qed.

Lemma allocate_zero_idempotent_witness :
  allocate (snd (allocate (Node 64 13 None) 0 8)) 0 8
  = (Some 16, Node 64 16 None).
Proof.
  rewrite (allocate_zero_idempotent (Node 64 13 None) 8); by_computation.
Defined.

(** ** The chain *)

Lemma chain_unfold node :
  chain node = node :: match node.(next) with
                       | Some below => chain below
                       | None => []
                       end.
Proof. destruct node as [c s [below|]]; reflexivity. Qed.

Lemma chain_tl_next node node' :
  node'.(next) = node.(next) -> tl (chain node') = tl (chain node).
Proof. intros E. rewrite (chain_unfold node'), (chain_unfold node), E. reflexivity. Qed.

Lemma allocate_next node n align :
  (snd (allocate node n align)).(next) = node.(next).
Proof.
  rewrite allocate_eq.
  destruct (past_of node n align >? capacity node); reflexivity.
Qed.

Lemma allocate_capacity node n align :
  (snd (allocate node n align)).(capacity) = node.(capacity).
Proof.
  rewrite allocate_eq.
  destruct (past_of node n align >? capacity node); reflexivity.
Qed.

(** The two ways a call of [extensible_arena::allocate] goes. *)
Lemma arena_allocate_cases head n align :
  (fst (allocate head n align) <> None /\
   arena_allocate head n align = allocate head n align) \/
  (allocate head n align = (None, head) /\
   arena_allocate head n align =
   allocate {| capacity := Z.min head.(capacity) n; size := 0;
               next := Some head |} n align).
Proof.
  destruct (allocate head n align) as [[p|] head'] eqn:E.
  - left. split; [discriminate|]. now apply arena_allocate_hit.
  - right. pose proof E as E'. apply allocate_None_inv in E' as [_ ->].
    split; [reflexivity|]. apply arena_allocate_grow. now rewrite E.
Qed.

(** A request on a block with [size = 0]. *)
Lemma allocate_fresh c nx n align :
  SizeT.in_range n ->
  allocate {| capacity := c; size := 0; next := nx |} n align =
  if n <=? c
  then (Some 0, {| capacity := c; size := n; next := nx |})
  else (None, {| capacity := c; size := 0; next := nx |}).
Proof.
  intros Hn.
  set (fresh := {| capacity := c; size := 0; next := nx |}).
  assert (Hstart : start_of fresh align = 0) by apply start_of_empty.
  assert (Hpast : past_of fresh n align = n).
  { unfold past_of. rewrite Hstart, Z.add_0_l. now apply wrap_small. }
  destruct (Z.leb_spec n c).
  - rewrite allocate_success by (rewrite Hpast; cbn; lia).
    now rewrite Hstart, Hpast.
  - apply allocate_fail. rewrite Hpast. cbn. lia.
Qed.

(** X5: when the head refuses a request, the block that is added has the
    capacity [min capacity n]: a request that is no larger than the head's
    capacity is served at offset 0 of a block of exactly [n] bytes, which
    is thereby full; a larger one gets [nullptr] and leaves an unused block
    of the head's capacity.  The refusing head becomes [next], untouched. *)
Theorem arena_allocate_growth :
  forall head n align,
    SizeT.in_range n -> fst (allocate head n align) = None ->
    arena_allocate head n align =
    if n <=? head.(capacity)
    then (Some 0, {| capacity := n; size := n; next := Some head |})
    else (None, {| capacity := head.(capacity); size := 0;
                   next := Some head |}).
Proof.
  intros head n align Hn Hfail.
  rewrite (arena_allocate_grow _ _ _ Hfail), (allocate_fresh _ _ _ _ Hn).
  destruct (Z.leb_spec n head.(capacity)).
  - rewrite Z.min_r by lia.
    destruct (Z.leb_spec n n); [reflexivity | lia].
  - rewrite Z.min_l by lia.
    destruct (Z.leb_spec n head.(capacity)); [lia | reflexivity].
Qed.

Lemma arena_allocate_growth_witness :
  arena_allocate (Node 64 60 None) 8 4
  = (Some 0, Node 8 8 (Some (Node 64 60 None))) /\
  arena_allocate (Node 64 60 None) 65 4
  = (None, Node 64 0 (Some (Node 64 60 None))).
Proof.
  split.
  - apply (arena_allocate_growth (Node 64 60 None) 8 4); by_computation.
  - apply (arena_allocate_growth (Node 64 60 None) 65 4); by_computation.
Defined.

(** X6: [extensible_arena::allocate] returns [nullptr] exactly when the
    head refuses the request and the request is larger than the head's
    capacity. *)
Theorem arena_allocate_null_iff :
  forall head n align,
    SizeT.in_range n ->
    fst (arena_allocate head n align) = None <->
    fst (allocate head n align) = None /\ head.(capacity) < n.
Proof.
  intros head n align Hn. split.
  - intros Hnull.
    destruct (arena_allocate_cases head n align) as [[Hhit E] | [Hfail E]].
    + rewrite E in Hnull. contradiction.
    + split; [now rewrite Hfail|].
      rewrite E, (allocate_fresh _ _ _ _ Hn) in Hnull.
      destruct (Z.leb_spec n (Z.min head.(capacity) n));
        [discriminate | lia].
  - intros [Hf Hbig]. now apply arena_allocate_oversized.
Qed.

Lemma arena_allocate_null_iff_witness :
  fst (allocate (Node 64 60 None) 65 4) = None /\ 64 < 65.
Proof.
  apply (arena_allocate_null_iff (Node 64 60 None) 65 4); by_computation.
Defined.

Lemma arena_allocate_step head n align :
  let head' := snd (arena_allocate head n align) in
  (tl (chain head') = tl (chain head) \/ tl (chain head') = chain head) /\
  head'.(capacity) <= head.(capacity).
Proof.
  cbv zeta.
  destruct (arena_allocate_cases head n align) as [[_ ->] | [_ ->]].
  - split.
    + left. apply chain_tl_next, allocate_next.
    + rewrite allocate_capacity. lia.
  - split.
    + right. rewrite chain_unfold, allocate_next. reflexivity.
    + rewrite allocate_capacity. cbn. lia.
Qed.

Lemma run_arena_cons n align reqs head :
  run_arena ((n, align) :: reqs) head =
  (fst (arena_allocate head n align)
     :: fst (run_arena reqs (snd (arena_allocate head n align))),
   snd (run_arena reqs (snd (arena_allocate head n align)))).
Proof.
  cbn [run_arena]. destruct (arena_allocate head n align) as [r head'].
  cbn [fst snd]. now destruct (run_arena reqs head').
Qed.

(** X7: blocks are only ever added in front.  Over any series of requests
    the blocks below the head stay in the chain, unchanged and in place;
    the chain never gets shorter and grows by at most one block per
    request. *)
Theorem run_arena_chain :
  forall reqs head,
    let head' := snd (run_arena reqs head) in
    tl (chain head) `suffix_of` tl (chain head') /\
    (length (chain head) <= length (chain head')
     <= length (chain head) + length reqs)%nat.
Proof.
  induction reqs as [|[n align] reqs IH]; intros head; cbv zeta.
  - cbn. split; [reflexivity | lia].
  - rewrite run_arena_cons. cbn [snd length].
    specialize (IH (snd (arena_allocate head n align))). cbv zeta in IH.
    destruct IH as [IHs IHl].
    destruct (arena_allocate_step head n align) as [[E | E] _].
    + assert (El : length (chain (snd (arena_allocate head n align)))
                   = length (chain head)).
      { rewrite (chain_unfold head), (chain_unfold (snd _)) in *.
        cbn in E |- *. now rewrite E. }
      rewrite E in IHs. split; [exact IHs | lia].
    + assert (El : length (chain (snd (arena_allocate head n align)))
                   = S (length (chain head))).
      { rewrite (chain_unfold (snd _)) in *. cbn in E |- *. now rewrite E. }
      rewrite E in IHs. split; [|lia].
      etrans; [|exact IHs]. rewrite (chain_unfold head). cbn.
      apply suffix_cons_r. reflexivity.
Qed.

(** X8: the head's capacity never grows.  After any series of requests it
    is at most what it was, so a request larger than the arena's first
    block that the head of the day refuses gets [nullptr]. *)
Theorem run_arena_capacity :
  forall reqs head,
    (snd (run_arena reqs head)).(capacity) <= head.(capacity) /\
    (forall n align,
        SizeT.in_range n -> head.(capacity) < n ->
        fst (allocate (snd (run_arena reqs head)) n align) = None ->
        fst (arena_allocate (snd (run_arena reqs head)) n align) = None).
Proof.
  assert (Hcap : forall reqs head,
             (snd (run_arena reqs head)).(capacity) <= head.(capacity)).
  { induction reqs as [|[n align] reqs IH]; intros head; [cbn; lia|].
    rewrite run_arena_cons. cbn [snd].
    specialize (IH (snd (arena_allocate head n align))).
    destruct (arena_allocate_step head n align) as [_ Hle]. cbv zeta in Hle.
    lia. }
  intros reqs head. split; [apply Hcap|].
  intros n align Hn Hbig Hfail.
  apply arena_allocate_oversized; try assumption.
  specialize (Hcap reqs head). lia.
Qed.

Lemma run_arena_capacity_witness :
  let reqs := [(60, 1); (8, 1); (16, 1)] in
  run_arena reqs (make 64)
  = ([Some 0; Some 0; None],
     Node 8 0 (Some (Node 8 8 (Some (Node 64 60 None))))) /\
  fst (arena_allocate (snd (run_arena reqs (make 64))) 100 1) = None.
Proof.
  split; [reflexivity|].
  apply (proj2 (run_arena_capacity [(60, 1); (8, 1); (16, 1)] (make 64)));
    by_computation.
Defined.

(** X9: every address [extensible_arena::allocate] returns for a
    power-of-two alignment is, as an offset into the head block's buffer,
    a multiple of that alignment, whether the old head or an added block
    serves the request. *)
Theorem arena_allocate_aligned :
  forall head n a p head',
    SizeT.in_range head.(size) -> SizeT.is_pow2 a ->
    arena_allocate head n a = (Some p, head') ->
    (a | p).
Proof.
  intros head n a p head' Hs Ha E.
  destruct (arena_allocate_cases head n a) as [[_ E'] | [_ E']];
    rewrite E' in E; apply allocate_Some_inv in E as (_ & -> & _).
  - now apply start_of_divides.
  - rewrite start_of_empty. apply Z.divide_0_r.
Qed.

Lemma arena_allocate_aligned_witness : (8 | 16).
Proof.
  apply (arena_allocate_aligned (Node 64 13 None) 24 8 16 (Node 64 40 None));
    by_computation.
Defined.

(** X10: for a request that does not wrap, the region
    [extensible_arena::allocate] returns lies inside the buffer of the
    block that is the head after the call, and that block's [size] is the
    end of the region. *)
Theorem arena_allocate_in_bounds :
  forall head n align p head',
    node_inv head -> no_wrap head n align ->
    arena_allocate head n align = (Some p, head') ->
    0 <= p /\ p + n = head'.(size) /\ head'.(size) <= head'.(capacity).
Proof.
  intros head n align p head' Hinv Hnw E.
  destruct (arena_allocate_cases head n align) as [[_ E'] | [Hfail E']].
  - rewrite E' in E.
    destruct (allocate_region _ _ _ _ _ Hinv Hnw E) as (Hlo & Hend & Hhi & Hc).
    destruct Hinv. lia.
  - assert (Hn : SizeT.in_range n).
    { destruct Hinv, Hnw as (? & ? & ?).
      unfold SizeT.in_range, SizeT.max in *. lia. }
    rewrite E', (allocate_fresh _ _ _ _ Hn) in E.
    destruct (Z.leb_spec n (Z.min head.(capacity) n)); [|discriminate].
    inversion E; subst. cbn. destruct Hn. lia.
Qed.

Lemma arena_allocate_in_bounds_witness :
  0 <= 0 /\ 0 + 8 = size (Node 8 8 (Some (Node 64 60 None))) /\
  size (Node 8 8 (Some (Node 64 60 None)))
  <= capacity (Node 8 8 (Some (Node 64 60 None))).
Proof.
  apply (arena_allocate_in_bounds (Node 64 60 None) 8 4); by_computation.
Defined.

Lemma arena_allocate_chain_inv head n align :
  Forall node_inv (chain head) -> 0 <= n ->
  Forall node_inv (chain (snd (arena_allocate head n align))).
Proof.
  intros Hall Hn.
  assert (Hhead : node_inv head)
    by (rewrite chain_unfold in Hall; now inversion Hall).
  destruct (arena_allocate_cases head n align) as [[_ ->] | [_ ->]].
  - rewrite chain_unfold, allocate_next. constructor.
    + now apply allocate_inv.
    + rewrite chain_unfold in Hall. now inversion Hall.
  - rewrite chain_unfold, allocate_next. constructor; [|exact Hall].
    apply allocate_inv. destruct Hhead. unfold node_inv. cbn. lia.
Qed.

(** X11: if every block of the chain satisfies [0 <= size <= capacity],
    so does every block of the chain after any series of requests; in
    particular for an arena fresh from its constructor. *)
Theorem run_arena_chain_inv :
  forall reqs head,
    Forall node_inv (chain head) -> Forall (fun r => 0 <= fst r) reqs ->
    Forall node_inv (chain (snd (run_arena reqs head))).
Proof.
  induction reqs as [|[n align] reqs IH]; intros head Hall Hreqs;
    [exact Hall|].
  rewrite run_arena_cons. cbn [snd].
  inversion Hreqs as [|? ? Hn Hreqs']; subst. cbn in Hn.
  apply IH; [|exact Hreqs']. now apply arena_allocate_chain_inv.
Qed.

Lemma run_arena_chain_inv_witness :
  Forall node_inv
    (chain (snd (run_arena [(60, 1); (8, 1); (16, 1)] (make 64)))).
Proof.
  apply run_arena_chain_inv.
  - repeat constructor; by_computation.
  - repeat constructor; by_computation.
Defined.

(** ** The entry points *)

Lemma static_allocate_inv n align st r st' :
  static_allocate n align st = Returned r st' ->
  exists slot head,
    st.(tls_head) = Some slot /\ st.(arenas) !! slot = Some head /\
    r = fst (arena_allocate head n align) /\
    st' = {| arenas := <[slot := snd (arena_allocate head n align)]>
                         st.(arenas);
             tls_head := Some slot |}.
Proof.
  unfold static_allocate.
  destruct (tls_head st) as [slot|] eqn:Et; [|discriminate].
  destruct (arenas st !! slot) as [head|] eqn:Eh; [|discriminate].
  destruct (arena_allocate head n align) as [start head'] eqn:Ea.
  intros E. inversion E; subst. exists slot, head.
  rewrite Ea. repeat split; assumption.
Qed.

(** X12: a call of the static entry point that returns changes nothing but
    the arena [tls_head] points to: the binding, the set of arenas and
    every other arena are as before. *)
Theorem static_allocate_frame :
  forall n align st r st',
    static_allocate n align st = Returned r st' ->
    st'.(tls_head) = st.(tls_head) /\
    dom st'.(arenas) = dom st.(arenas) /\
    (forall slot,
        st.(tls_head) <> Some slot ->
        st'.(arenas) !! slot = st.(arenas) !! slot).
Proof.
  intros n align st r st' E.
  apply static_allocate_inv in E as (slot & head & Et & Eh & _ & ->).
  cbn. split; [now rewrite Et|]. split.
  - rewrite dom_insert_L.
    apply subseteq_union_1_L, singleton_subseteq_l, elem_of_dom. eauto.
  - intros slot' Hne. apply lookup_insert_ne. congruence.
Qed.

Lemma static_allocate_frame_witness :
  let st := snd (scope_ctor 1 (extensible_arena 1 64
                                 (extensible_arena 0 32 thread_start))) in
  let st' := {| arenas := <[1%nat := Node 64 8 None]> st.(arenas);
                tls_head := Some 1%nat |} in
  static_allocate 8 1 st = Returned (Some 0) st' /\
  st'.(arenas) !! 0%nat = st.(arenas) !! 0%nat.
Proof.
  intros st st'.
  assert (E : static_allocate 8 1 st = Returned (Some 0) st') by reflexivity.
  split; [exact E|].
  apply (proj2 (proj2 (static_allocate_frame 8 1 st (Some 0) st' E))).
  discriminate.
Defined.

Lemma static_allocate_bound n align arena st r st' :
  st.(tls_head) = Some arena ->
  static_allocate n align st = Returned r st' ->
  st'.(tls_head) = Some arena /\
  (forall slot, slot <> arena ->
                st'.(arenas) !! slot = st.(arenas) !! slot).
Proof.
  intros Hb E.
  apply static_allocate_inv in E as (slot & head & Et & _ & _ & ->).
  assert (slot = arena) by congruence. subst slot. cbn.
  split; [reflexivity|]. intros slot Hne. now apply lookup_insert_ne.
Qed.

Lemma exec_plain c :
  forall arena st r st',
    plain c = true -> st.(tls_head) = Some arena ->
    exec c st = Returned r st' ->
    st'.(tls_head) = Some arena /\
    (forall slot, slot <> arena ->
                  st'.(arenas) !! slot = st.(arenas) !! slot).
Proof.
  induction c as [ | p IHp q IHq | this cap | n align | sz al n | ptr n
                 | a body IH ]; intros arena st r st' Hplain Hb E;
    cbn [exec] in E; try discriminate Hplain.
  - inversion E; subst. auto.
  - cbn in Hplain. apply andb_true_iff in Hplain as [Hp Hq].
    destruct (exec p st) as [r1 st1| |] eqn:Ep; cbn [bind] in E;
      try discriminate.
    destruct (exec q st1) as [r2 st2| |] eqn:Eq; cbn [bind] in E;
      try discriminate.
    inversion E; subst.
    destruct (IHp _ _ _ _ Hp Hb Ep) as [Hb1 Hf1].
    destruct (IHq _ _ _ _ Hq Hb1 Eq) as [Hb2 Hf2].
    split; [exact Hb2|]. intros slot Hne.
    now rewrite (Hf2 slot Hne), (Hf1 slot Hne).
  - destruct (static_allocate n align st) as [r1 st1| |] eqn:Ea;
      cbn [bind] in E; try discriminate.
    inversion E; subst. exact (static_allocate_bound _ _ _ _ _ _ Hb Ea).
  - unfold adapter_allocate in E.
    destruct (static_allocate (SizeT.wrap (n * sz)) al st)
      as [r1 st1| |] eqn:Ea; cbn [bind] in E; try discriminate.
    inversion E; subst. exact (static_allocate_bound _ _ _ _ _ _ Hb Ea).
  - inversion E; subst. auto.
Qed.

(** X13: in a scoped block that opens no further scope and constructs no
    arena, every allocation is served by the scope's arena: when the block
    is left, every other arena is as it was when the block was entered,
    whatever was bound before. *)
Theorem scoped_plain_frame :
  forall arena body st r st',
    plain body = true ->
    exec (Scoped arena body) st = Returned r st' ->
    forall slot, slot <> arena ->
                 st'.(arenas) !! slot = st.(arenas) !! slot.
Proof.
  intros arena body st r st' Hplain E slot Hne.
  cbn [exec scope_ctor] in E.
  destruct (exec body _) as [r1 st1| |] eqn:Eb; cbn [bind] in E;
    try discriminate.
  inversion E; subst. cbn.
  destruct (exec_plain body arena
              {| arenas := arenas st; tls_head := Some arena |} r st1
              Hplain eq_refl Eb) as [_ Hf].
  now rewrite (Hf slot Hne).
Qed.

Lemma scoped_plain_frame_witness :
  let st := scope_dtor (Scope (Some 0%nat))
              (extensible_arena 1 64 (extensible_arena 0 32 thread_start)) in
  let body := Seq (RawAllocate 8 1) (Seq (Deallocate (Some 0) 8)
                                         (Allocate 4 4 3)) in
  let st' := {| arenas := <[1%nat := Node 64 20 None]> st.(arenas);
                tls_head := Some 1%nat |} in
  exec (Scoped 1%nat body) st = Returned [Some 0; Some 8] st' /\
  st'.(arenas) !! 0%nat = st.(arenas) !! 0%nat.
Proof.
  intros st body st'.
  assert (E : exec (Scoped 1%nat body) st = Returned [Some 0; Some 8] st')
    by reflexivity.
  split; [exact E|].
  apply (scoped_plain_frame 1%nat body st _ st' eq_refl E). discriminate.
Defined.

(** X14: [arena_allocator<T>::allocate(n)], called with an arena bound
    whose head satisfies the block invariant, for [n * sizeof(T)] bytes
    that do not wrap and [alignof(T)] a power of two: a non-null result is,
    as an offset into the [data] buffer of the bound arena's head block, a
    multiple of [alignof(T)], and the [n * sizeof(T)] bytes from that
    offset lie inside the buffer, the block's [size] being their end.
    Nothing is said of the address of [data] itself. *)
Theorem adapter_allocate_sound :
  forall sizeof_T alignof_T n st slot head p st',
    st.(tls_head) = Some slot -> st.(arenas) !! slot = Some head ->
    node_inv head -> no_wrap head (n * sizeof_T) alignof_T ->
    SizeT.is_pow2 alignof_T ->
    adapter_allocate sizeof_T alignof_T n st = Returned (Some p) st' ->
    exists head',
      st'.(arenas) !! slot = Some head' /\
      (alignof_T | p) /\ 0 <= p /\
      p + n * sizeof_T = head'.(size) /\ head'.(size) <= head'.(capacity).
Proof.
  intros sz al n st slot head p st' Ht Eh Hinv Hnw Hpow E.
  unfold adapter_allocate in E.
  assert (Hr : SizeT.in_range (n * sz)).
  { destruct Hinv, Hnw as (? & ? & ?).
    unfold SizeT.in_range, SizeT.max in *. lia. }
  rewrite (wrap_small _ Hr) in E.
  apply static_allocate_inv in E as (slot' & head0 & Et' & Eh' & Er & ->).
  assert (slot' = slot) by congruence. subst slot'.
  assert (head0 = head) by congruence. subst head0.
  exists (snd (arena_allocate head (n * sz) al)). cbn.
  split; [apply lookup_insert_eq|].
  assert (Ea : arena_allocate head (n * sz) al
               = (Some p, snd (arena_allocate head (n * sz) al))).
  { rewrite Er. now destruct (arena_allocate head (n * sz) al). }
  assert (Hs : SizeT.in_range head.(size)).
  { destruct Hinv, Hnw as (? & ? & ?).
    unfold SizeT.in_range, SizeT.max in *. lia. }
  destruct (arena_allocate_cases head (n * sz) al) as [[_ E'] | [_ E']];
    rewrite E' in Ea |- *.
  - pose proof (start_of_divides head al Hs Hpow) as Hdiv.
    destruct (allocate_region _ _ _ _ _ Hinv Hnw Ea) as (Hlo & Hend & Hhi & Hc).
    apply allocate_Some_inv in Ea as (_ & -> & _).
    split; [exact Hdiv|]. destruct Hinv. lia.
  - rewrite (allocate_fresh _ _ _ _ Hr) in Ea |- *.
    destruct (Z.leb_spec (n * sz) (Z.min head.(capacity) (n * sz)));
      [|discriminate].
    inversion Ea; subst. cbn.
    split; [apply Z.divide_0_r|]. destruct Hr. lia.
Qed.

Lemma adapter_allocate_sound_witness :
  let st := {| arenas := {[0%nat := Node 64 5 None]};
               tls_head := Some 0%nat |} in
  let st' := {| arenas := <[0%nat := Node 64 20 None]> st.(arenas);
                tls_head := Some 0%nat |} in
  adapter_allocate 4 4 3 st = Returned (Some 8) st' /\
  exists head',
    st'.(arenas) !! 0%nat = Some head' /\
    (4 | 8) /\ 0 <= 8 /\ 8 + 3 * 4 = head'.(size) /\
    head'.(size) <= head'.(capacity).
Proof.
  intros st st'.
  assert (E : adapter_allocate 4 4 3 st = Returned (Some 8) st')
    by reflexivity.
  split; [exact E|].
  apply (adapter_allocate_sound 4 4 3 st 0%nat (Node 64 5 None) 8 st');
    first [exact E | by_computation].
Defined.

(** X15: the adapter multiplies the count by [sizeof(T)] in [size_t] and
    does not check the product: for an element size [2^j], a count and
    that count plus [2^(64 - j)] are the same request. *)
Theorem adapter_count_wraps :
  forall j alignof_T n st,
    0 <= j <= SizeT.bits ->
    adapter_allocate (2 ^ j) alignof_T (n + 2 ^ (SizeT.bits - j)) st
    = adapter_allocate (2 ^ j) alignof_T n st.
Proof.
  intros j al n st Hj. unfold adapter_allocate. f_equal.
  unfold SizeT.wrap, SizeT.modulus.
  rewrite Z.mul_add_distr_r, <- Z.pow_add_r by lia.
  replace (SizeT.bits - j + j) with SizeT.bits by lia.
  rewrite <- (Z.mul_1_l (2 ^ SizeT.bits)) at 1.
  apply Z.mod_add. unfold SizeT.bits. lia.
Qed.

Lemma adapter_count_wraps_witness :
  let st := snd (scope_ctor 0 (extensible_arena 0 64 thread_start)) in
  adapter_allocate 8 8 (2 ^ 61 + 2) st = adapter_allocate 8 8 2 st.
Proof.
  cbv zeta.
  exact (adapter_count_wraps 3 8 2 _ ltac:(by_computation)).
Defined.

Lemma static_allocate_live n align arena st :
  st.(tls_head) = Some arena -> is_Some (st.(arenas) !! arena) ->
  exists r st',
    static_allocate n align st = Returned r st' /\
    st'.(tls_head) = Some arena /\ is_Some (st'.(arenas) !! arena).
Proof.
  intros Hb [head Eh]. unfold static_allocate. rewrite Hb, Eh.
  destruct (arena_allocate head n align) as [r head'].
  eexists _, _. split; [reflexivity|]. cbn.
  split; [reflexivity|]. rewrite lookup_insert_eq. eauto.
Qed.

Lemma exec_plain_live c :
  forall arena st,
    plain c = true ->
    st.(tls_head) = Some arena -> is_Some (st.(arenas) !! arena) ->
    exists r st',
      exec c st = Returned r st' /\
      st'.(tls_head) = Some arena /\ is_Some (st'.(arenas) !! arena).
Proof.
  induction c as [ | p IHp q IHq | this cap | n align | sz al n | ptr n
                 | a body IH ]; intros arena st Hplain Hb Hlive;
    cbn [exec]; try discriminate Hplain.
  - eauto.
  - cbn in Hplain. apply andb_true_iff in Hplain as [Hp Hq].
    destruct (IHp arena st Hp Hb Hlive) as (r1 & st1 & -> & Hb1 & Hl1).
    cbn [bind].
    destruct (IHq arena st1 Hq Hb1 Hl1) as (r2 & st2 & -> & Hb2 & Hl2).
    cbn [bind]. eauto.
  - destruct (static_allocate_live n align arena st Hb Hlive)
      as (r & st' & -> & Hb' & Hl'). cbn [bind]. eauto.
  - unfold adapter_allocate.
    destruct (static_allocate_live (SizeT.wrap (n * sz)) al arena st Hb Hlive)
      as (r & st' & -> & Hb' & Hl'). cbn [bind]. eauto.
  - unfold adapter_deallocate. eauto.
Qed.

(** X16: a scoped block on a live arena that opens no further scope and
    constructs no arena runs to its end: no allocation in it stops at the
    assertion or finds the binding dangling. *)
Theorem scoped_plain_returns :
  forall arena body st,
    plain body = true -> is_Some (st.(arenas) !! arena) ->
    exists r st', exec (Scoped arena body) st = Returned r st'.
Proof.
  intros arena body st Hplain Hlive. cbn [exec scope_ctor].
  destruct (exec_plain_live body arena
              {| arenas := arenas st; tls_head := Some arena |}
              Hplain eq_refl Hlive) as (r & st' & -> & _).
  cbn [bind]. eauto.
Qed.

Lemma scoped_plain_returns_witness :
  exists r st',
    exec (Scoped 0%nat (Seq (RawAllocate 100 1) (Allocate 4 4 3)))
         (extensible_arena 0 64 thread_start)
    = Returned r st'.
Proof.
  apply scoped_plain_returns; [reflexivity|].
  exists (make 64). reflexivity.
Defined.

(** ** Edges of the block arithmetic *)

(** X17: [list_node::allocate] accepts every byte-aligned request that is
    large enough to wrap [size + n] around [size_t]: the call succeeds in
    place, [size] falls to [size + n - 2^64], and the region returned runs
    past the end of the buffer. *)
Theorem allocate_wrapping_accepted :
  forall node n,
    node_inv node -> node.(capacity) <= SizeT.max -> SizeT.in_range n ->
    SizeT.modulus <= node.(size) + n ->
    allocate node n 1 =
      (Some node.(size),
       {| capacity := node.(capacity);
          size := node.(size) + n - SizeT.modulus;
          next := node.(next) |}) /\
    node.(size) + n - SizeT.modulus < node.(size) /\
    node.(capacity) < node.(size) + n.
Proof.
  intros node n [Hs Hc] Hmax [Hn0 Hn1] Hwrap. unfold SizeT.max in *.
  assert (Hstart : start_of node 1 = node.(size))
    by (apply start_of_align1; unfold SizeT.in_range; lia).
  assert (Hpast : past_of node n 1 = node.(size) + n - SizeT.modulus).
  { unfold past_of, SizeT.wrap. rewrite Hstart. symmetry.
    apply (Z.mod_unique _ _ 1); lia. }
  split; [|lia].
  rewrite allocate_success by lia. now rewrite Hstart, Hpast.
Qed.

Lemma allocate_wrapping_accepted_witness :
  allocate (Node 64 40 None) (SizeT.max - 7) 1
  = (Some 40, {| capacity := 64; size := 40 + (SizeT.max - 7) - SizeT.modulus;
                 next := None |}).
Proof.
  apply (allocate_wrapping_accepted (Node 64 40 None) (SizeT.max - 7));
    by_computation.
Defined.

(** X18: with [align = 0] the mask is zero and the start offset is 0
    whatever [size] is: a request that fits the whole buffer is served at
    the beginning of the block, over what was handed out before, and
    [size] becomes [n]. *)
Theorem allocate_align_zero :
  forall node n,
    SizeT.in_range n ->
    allocate node n 0 =
    if n <=? node.(capacity)
    then (Some 0, {| capacity := node.(capacity); size := n;
                     next := node.(next) |})
    else (None, node).
Proof.
  intros node n Hn.
  assert (Hstart : start_of node 0 = 0).
  { unfold start_of. change (SizeT.not (SizeT.wrap (0 - 1))) with 0.
    apply Z.land_0_r. }
  assert (Hpast : past_of node n 0 = n).
  { unfold past_of. rewrite Hstart, Z.add_0_l. now apply wrap_small. }
  destruct (Z.leb_spec n node.(capacity)).
  - rewrite allocate_success by lia. now rewrite Hstart, Hpast.
  - apply allocate_fail. lia.
Qed.

Lemma allocate_align_zero_witness :
  allocate (Node 64 40 None) 8 0 = (Some 0, Node 64 8 None).
Proof.
  apply (allocate_align_zero (Node 64 40 None) 8). by_computation.
Defined.

(** X19: the padding in front of a region is as small as the alignment
    allows.  For a request that does not wrap it is less than [align]; for
    a power of two the start is the least multiple of [align] that is not
    below [size]. *)
Theorem allocate_padding_minimal :
  forall node n align p node',
    node_inv node -> no_wrap node n align ->
    allocate node n align = (Some p, node') ->
    0 <= p - node.(size) < align /\
    (SizeT.is_pow2 align ->
     (align | p) /\
     forall m, (align | m) -> node.(size) <= m -> p <= m).
Proof.
  intros node n align p node' Hinv Hnw E.
  destruct (start_of_no_wrap node n align (proj1 Hinv) Hnw) as [Hb _].
  apply allocate_Some_inv in E as (_ & -> & _).
  split; [lia|]. intros Hpow.
  assert (Hs : SizeT.in_range node.(size)).
  { destruct Hinv, Hnw as (? & ? & ?).
    unfold SizeT.in_range, SizeT.max in *. lia. }
  split; [now apply start_of_divides|].
  intros m Hdiv Hle.
  assert (Ha : 0 < align) by (destruct Hpow as [[? ?] ?]; assumption).
  pose proof (round_up_least node.(size) align m Ha Hdiv Hle) as Hleast.
  destruct (round_up_spec node.(size) align Ha) as [_ Hr].
  rewrite (start_of_pow2 node align Hs Hpow), wrap_small; [exact Hleast|].
  destruct Hinv, Hnw as (? & ? & ?).
  unfold SizeT.in_range, SizeT.max in *. lia.
Qed.

Lemma allocate_padding_minimal_witness :
  0 <= 16 - size (Node 64 13 None) < 8 /\
  (SizeT.is_pow2 8 ->
   (8 | 16) /\ forall m, (8 | m) -> size (Node 64 13 None) <= m -> 16 <= m).
Proof.
  apply (allocate_padding_minimal (Node 64 13 None) 24 8 16 (Node 64 40 None));
    by_computation.
Defined.

(** X20: for a power-of-two alignment and a request that does not wrap,
    the block serves the request exactly when the rounded-up start plus
    [n] is within [capacity]: it never refuses a request that fits. *)
Theorem allocate_succeeds_iff :
  forall node n align,
    node_inv node -> no_wrap node n align -> SizeT.is_pow2 align ->
    fst (allocate node n align) <> None <->
    round_up node.(size) align + n <= node.(capacity).
Proof.
  intros node n align Hinv Hnw Hpow.
  destruct (start_of_no_wrap node n align (proj1 Hinv) Hnw) as [Hb Hp].
  assert (Ha : 0 < align) by (destruct Hpow as [[? ?] ?]; assumption).
  destruct (round_up_spec node.(size) align Ha) as [_ Hr].
  assert (Hstart : start_of node align = round_up node.(size) align).
  { rewrite start_of_pow2; try assumption.
    - apply wrap_small. destruct Hinv, Hnw as (? & ? & ?).
      unfold SizeT.in_range, SizeT.max in *. lia.
    - destruct Hinv, Hnw as (? & ? & ?).
      unfold SizeT.in_range, SizeT.max in *. lia. }
  rewrite allocate_eq.
  destruct (Z.gtb_spec (past_of node n align) node.(capacity)); cbn [fst].
  - split; [congruence | lia].
  - split; [lia | discriminate].
Qed.

Lemma allocate_succeeds_iff_witness :
  fst (allocate (Node 64 13 None) 48 8) <> None.
Proof.
  apply (allocate_succeeds_iff (Node 64 13 None) 48 8); by_computation.
Defined.
